(** * Environment configuration of the coffee-shop frontend

    Source: [frontend/src/environments/environment.ts].  The module consists
    of one statement, [export const environment = { ... }], whose initializer
    is an object literal holding a boolean, a string and a nested object
    literal of four strings.

    The development embeds
    - the literal as an expression tree and its evaluation to a JavaScript
      value (objects are ordered lists of own properties),
    - module loading as the execution of the module's statement list over a
      store of bindings,
    - property reads and writes with the outcomes JavaScript gives them,
    - the type TypeScript infers for the declaration, with the exact and
      the structural check of a value against it,
    and, for the properties that speak about URLs and JSON, a URL recogniser
    (RFC 3986, scheme and authority) and the JSON text of a value together
    with its parser. *)

From Stdlib Require Import String Ascii List Bool Arith NArith Lia.
Import ListNotations.
Open Scope string_scope.
Set Warnings "-register-all".

(** ** Values, outcomes and own properties *)

Module JS.

Inductive value : Type :=
| VUndefined
| VBool (b : bool)
| VString (s : string)
| VObject (props : list (string * value)).

Inductive error : Type :=
| TypeError
| ReferenceError
| SyntaxError.

Inductive result (A : Type) : Type :=
| Ok (a : A)
| Throw (e : error).
Arguments Ok {A} a.
Arguments Throw {A} e.

Definition bind {A B} (r : result A) (k : A -> result B) : result B :=
  match r with
  | Ok a => k a
  | Throw e => Throw e
  end.

Notation "x <- r ;; k" := (bind r (fun x => k))
  (at level 61, r at next level, right associativity).

(** Own property lookup: the first entry under the key. *)
Fixpoint lookup {A} (k : string) (ps : list (string * A)) : option A :=
  match ps with
  | [] => None
  | (k', v) :: rest => if String.eqb k k' then Some v else lookup k rest
  end.

(** [CreateDataProperty]: an existing key keeps its position and takes the
    new value, a new key goes last.  Property keys of the source are
    identifier names, so the integer-index ordering of own keys never
    applies. *)
Fixpoint define_prop {A} (k : string) (v : A) (ps : list (string * A))
  : list (string * A) :=
  match ps with
  | [] => [(k, v)]
  | (k', v') :: rest =>
      if String.eqb k k' then (k, v) :: rest
      else (k', v') :: define_prop k v rest
  end.

Definition own_keys (v : value) : list string :=
  match v with
  | VObject ps => map fst ps
  | _ => []
  end.

(** [v.k]: reading from [undefined] throws, reading an absent own property
    yields [undefined].  Only own data properties are modelled: what is
    inherited ([toString], [__proto__]) and the [length] and index
    properties of a string are not, so the function speaks for the language
    at the names of own properties of objects and nowhere else. *)
Definition get (v : value) (k : string) : result value :=
  match v with
  | VUndefined => Throw TypeError
  | VObject ps =>
      match lookup k ps with
      | Some w => Ok w
      | None => Ok VUndefined
      end
  | VBool _ | VString _ => Ok VUndefined
  end.

(** [v.k1.k2. ... .kn] *)
Fixpoint get_path (v : value) (path : list string) : result value :=
  match path with
  | [] => Ok v
  | k :: rest => w <- get v k ;; get_path w rest
  end.

(** [v.k1. ... .kn = w] on an ordinary, extensible, non-frozen object, which
    is what an object literal evaluates to: the write succeeds and replaces
    or creates the own property.  Module code is strict, so writing a
    property of [undefined] or of a primitive throws. *)
Fixpoint set_path (v : value) (path : list string) (w : value)
  : result value :=
  match path with
  | [] => Ok w
  | k :: rest =>
      match v with
      | VUndefined | VBool _ | VString _ => Throw TypeError
      | VObject ps =>
          match rest with
          | [] => Ok (VObject (define_prop k w ps))
          | _ :: _ =>
              inner <- get v k ;;
              inner' <- set_path inner rest w ;;
              Ok (VObject (define_prop k inner' ps))
          end
      end
  end.

(** Runtime kinds of values. *)
Inductive kind : Type := KUndefined | KBoolean | KString | KObject.

Definition kind_of (v : value) : kind :=
  match v with
  | VUndefined => KUndefined
  | VBool _ => KBoolean
  | VString _ => KString
  | VObject _ => KObject
  end.

Definition is_scalar (v : value) : bool :=
  match v with
  | VBool _ | VString _ => true
  | _ => false
  end.

Definition is_record (v : value) : bool :=
  match v with
  | VObject _ => true
  | _ => false
  end.

End JS.
Import JS.

(** ** The source literal and module loading *)

(** Expressions of the module: boolean and string literals and object
    literals whose property names are identifiers. *)
Inductive expr : Type :=
| EBool (b : bool)
| EStr (s : string)
| EObj (props : list (string * expr)).

(** Evaluation of an object literal defines the properties left to right. *)
Fixpoint eval (e : expr) : value :=
  match e with
  | EBool b => VBool b
  | EStr s => VString s
  | EObj props =>
      VObject
        ((fix go (ps : list (string * expr)) (acc : list (string * value)) :=
            match ps with
            | [] => acc
            | (k, e') :: rest => go rest (define_prop k (eval e') acc)
            end) props [])
  end.

(** The initializer of [environment], lines 5 to 14 of the source. *)
Definition environment_expr : expr :=
  EObj
    [ ("production", EBool false);
      ("apiServerUrl", EStr "http://127.0.0.1:5000");
      ("auth0",
        EObj
          [ ("url", EStr "dev-ya94ppfc.us");
            ("audience", EStr "drinks");
            ("clientId", EStr "Vna6pHZHZ9P1dvOeq6POJ2WB8lBsfY8G");
            ("callbackURL", EStr "http://localhost:8100") ]) ].

Inductive stmt : Type :=
| ExportConst (name : string) (init : expr).

(** The whole module body: one exported constant declaration. *)
Definition module_body : list stmt :=
  [ ExportConst "environment" environment_expr ].

Definition store : Type := list (string * value).

(** A [const] declaration binds a fresh name; a second declaration of the same
    name in one scope is an early error. *)
Definition exec_stmt (st : store) (s : stmt) : result store :=
  match s with
  | ExportConst name init =>
      match lookup name st with
      | Some _ => Throw SyntaxError
      | None => Ok (st ++ [(name, eval init)])%list
      end
  end.

Fixpoint exec (st : store) (body : list stmt) : result store :=
  match body with
  | [] => Ok st
  | s :: rest => st' <- exec_stmt st s ;; exec st' rest
  end.

Definition load_module : result store := exec [] module_body.

(** The value bound to the exported name. *)
Definition environment : value := eval environment_expr.

(** Reading an exported binding of a loaded module. *)
Definition read (st : store) (name : string) (path : list string)
  : result value :=
  match lookup name st with
  | Some v => get_path v path
  | None => Throw ReferenceError
  end.

(** ** The declared shape *)

(** Types of the fragment: [boolean], [string] and object types. *)
Inductive ty : Type :=
| TBoolean
| TString
| TObject (fields : list (string * ty)).

(** The type inferred for a [const] whose initializer is an object literal
    without [as const]: the literal types of the properties widen to
    [boolean] and [string], and no property is [readonly]. *)
Fixpoint infer (e : expr) : ty :=
  match e with
  | EBool _ => TBoolean
  | EStr _ => TString
  | EObj props =>
      TObject
        ((fix go (ps : list (string * expr)) (acc : list (string * ty)) :=
            match ps with
            | [] => acc
            | (k, e') :: rest => go rest (define_prop k (infer e') acc)
            end) props [])
  end.

(** [typeof environment] *)
Definition environment_type : ty := infer environment_expr.

Definition mem (k : string) (ks : list string) : bool :=
  existsb (String.eqb k) ks.

(** The exact check of a value against an object type: every declared field
    is an own property holding a value of the field's type, and there is no
    own property besides the declared ones.  It is stricter than
    assignability to the type, which lets further properties through
    ([assignable] below). *)
Fixpoint has_type (v : value) (t : ty) : bool :=
  match t, v with
  | TBoolean, VBool _ => true
  | TString, VString _ => true
  | TObject fs, VObject ps =>
      (fix fields_ok (fs' : list (string * ty)) : bool :=
         match fs' with
         | [] => true
         | (k, t') :: rest =>
             match lookup k ps with
             | Some w => has_type w t'
             | None => false
             end && fields_ok rest
         end) fs
      && forallb (fun k => mem k (map fst fs)) (map fst ps)
  | _, _ => false
  end.

(** The shape seen through a path of property names: the kind of what the
    read yields, or nothing when the read throws. *)
Definition shape_at (v : value) (path : list string) : option kind :=
  match get_path v path with
  | Ok w => Some (kind_of w)
  | Throw _ => None
  end.

Definition fields_of (v : value) : list (string * value) :=
  match v with
  | VObject ps => ps
  | _ => []
  end.

Definition scalar_fields (v : value) : nat :=
  length (filter (fun kv => is_scalar (snd kv)) (fields_of v)).

Definition record_fields (v : value) : nat :=
  length (filter (fun kv => is_record (snd kv)) (fields_of v)).

(** Every path of property names that leads to a declared field, the nested
    record itself included. *)
Fixpoint field_paths (v : value) : list (list string) :=
  match v with
  | VObject ps =>
      (fix go (ps' : list (string * value)) : list (list string) :=
         match ps' with
         | [] => []
         | (k, w) :: rest =>
             ([k] :: map (cons k) (field_paths w)) ++ go rest
         end)%list ps
  | _ => []
  end.

(** The paths that end in a value that is not a record, with that value. *)
Fixpoint leaves (v : value) : list (list string * value) :=
  match v with
  | VObject ps =>
      (fix go (ps' : list (string * value)) : list (list string * value) :=
         match ps' with
         | [] => []
         | (k, w) :: rest =>
             match w with
             | VObject _ =>
                 map (fun pv => (k :: fst pv, snd pv)) (leaves w)
             | _ => [([k], w)]
             end ++ go rest
         end)%list ps
  | _ => []
  end.

Definition string_field_paths : list (list string) :=
  [ ["apiServerUrl"];
    ["auth0"; "url"];
    ["auth0"; "audience"];
    ["auth0"; "clientId"];
    ["auth0"; "callbackURL"] ].

(** ** The process after module load *)

(** What code holding the exported binding can do with it. *)
Inductive op : Type :=
| OpGet (name : string) (path : list string)
| OpSet (name : string) (path : list string) (w : value).

(** One operation on the store.  A read leaves the store as it is.  A write to
    a property replaces the object bound to the name; a write to the [const]
    binding itself throws, and so does any use of a name that is not bound. *)
Definition step (st : store) (o : op) : result (store * value) :=
  match o with
  | OpGet name path =>
      v <- read st name path ;; Ok (st, v)
  | OpSet name path w =>
      match lookup name st with
      | None => Throw ReferenceError
      | Some v =>
          match path with
          | [] => Throw TypeError
          | _ :: _ =>
              v' <- set_path v path w ;; Ok (define_prop name v' st, w)
          end
      end
  end.

(** A throwing operation leaves the store untouched and the process goes on. *)
Fixpoint run (st : store) (ops : list op) : store :=
  match ops with
  | [] => st
  | o :: rest =>
      match step st o with
      | Ok (st', _) => run st' rest
      | Throw _ => run st rest
      end
  end.

(** ** URLs *)

(** Recogniser for absolute URLs with an authority, after RFC 3986:
    [scheme "://" [userinfo "@"] host [":" port] path-abempty ["?" query]
    ["#" fragment]], with a registered name or a dotted IPv4 address as host.
    IP literals in brackets are not recognised.  What follows the authority
    is kept whole, as [tail], and checked character by character only: a
    percent sign is let through without its two hexadecimal digits, and so
    is a second number sign; a port is any run of digits. *)
Module URL.

Local Open Scope nat_scope.

Definition code (c : ascii) : nat := nat_of_ascii c.

Definition between (lo hi : nat) (c : ascii) : bool :=
  (lo <=? code c) && (code c <=? hi).

Definition is_alpha (c : ascii) : bool := between 65 90 c || between 97 122 c.
Definition is_digit (c : ascii) : bool := between 48 57 c.

Definition one_of (cs : string) (c : ascii) : bool :=
  existsb (Ascii.eqb c) (list_ascii_of_string cs).

Definition is_scheme_char (c : ascii) : bool :=
  is_alpha c || is_digit c || one_of "+-." c.

Definition is_unreserved (c : ascii) : bool :=
  is_alpha c || is_digit c || one_of "-._~" c.

Definition is_sub_delim (c : ascii) : bool := one_of "!$&'()*+,;=" c.

(** Characters of a registered name (a percent sign opens an escape). *)
Definition is_host_char (c : ascii) : bool :=
  is_unreserved c || is_sub_delim c || one_of "%" c.

Definition is_userinfo_char (c : ascii) : bool :=
  is_host_char c || one_of ":" c.

(** Characters of path, query and fragment. *)
Definition is_tail_char (c : ascii) : bool :=
  is_userinfo_char c || one_of "/?#@" c.

Definition ends_authority (c : ascii) : bool := one_of "/?#" c.

Fixpoint all_chars (p : ascii -> bool) (s : string) : bool :=
  match s with
  | EmptyString => true
  | String c r => p c && all_chars p r
  end.

Fixpoint contains (c : ascii) (s : string) : bool :=
  match s with
  | EmptyString => false
  | String c' r => Ascii.eqb c c' || contains c r
  end.

(** The longest prefix whose characters satisfy [p], and what follows. *)
Fixpoint span (p : ascii -> bool) (s : string) : string * string :=
  match s with
  | EmptyString => (EmptyString, EmptyString)
  | String c r =>
      if p c then let (a, b) := span p r in (String c a, b)
      else (EmptyString, s)
  end.

Fixpoint strip_prefix (pre s : string) : option string :=
  match pre, s with
  | EmptyString, _ => Some s
  | String a pre', String b s' =>
      if Ascii.eqb a b then strip_prefix pre' s' else None
  | String _ _, EmptyString => None
  end.

Definition lower (c : ascii) : ascii :=
  if between 65 90 c then ascii_of_nat (code c + 32) else c.

Fixpoint lowercase (s : string) : string :=
  match s with
  | EmptyString => EmptyString
  | String c r => String (lower c) (lowercase r)
  end.

Fixpoint decimal_from (acc : nat) (s : string) : nat :=
  match s with
  | EmptyString => acc
  | String c r => decimal_from (10 * acc + (code c - 48)) r
  end.

(** A non-empty run of digits read as a number. *)
Definition decimal (s : string) : option nat :=
  match s with
  | EmptyString => None
  | String _ _ => if all_chars is_digit s then Some (decimal_from 0 s) else None
  end.

Record url : Type := mk_url {
  scheme : string;
  userinfo : option string;
  host : string;
  port : option nat;
  tail : string
}.

(** [authority = [userinfo "@"] host [":" port]] *)
Definition parse_authority (a : string)
  : option (option string * string * option nat) :=
  let (ui, hp) :=
    if contains "@" a then
      let (u, r) := span (fun c => negb (Ascii.eqb c "@")) a in
      (Some u, match r with String _ r' => r' | EmptyString => r end)
    else (None, a) in
  let (h, r) := span is_host_char hp in
  let ui_ok :=
    match ui with
    | Some u => all_chars is_userinfo_char u
    | None => true
    end in
  match h with
  | EmptyString => None
  | String _ _ =>
      if ui_ok then
        match r with
        | EmptyString => Some (ui, h, None)
        | String c digits =>
            if Ascii.eqb c ":" then
              match digits with
              | EmptyString => Some (ui, h, None)
              | String _ _ =>
                  match decimal digits with
                  | Some n => Some (ui, h, Some n)
                  | None => None
                  end
              end
            else None
        end
      else None
  end.

Definition parse (s : string) : option url :=
  let (sch, r1) := span is_scheme_char s in
  match sch with
  | EmptyString => None
  | String c _ =>
      if is_alpha c then
        match strip_prefix "://" r1 with
        | None => None
        | Some r2 =>
            let (auth, rest) := span (fun c => negb (ends_authority c)) r2 in
            match parse_authority auth with
            | None => None
            | Some (ui, h, p) =>
                if all_chars is_tail_char rest
                then Some (mk_url (lowercase sch) ui (lowercase h) p rest)
                else None
            end
        end
      else None
  end.

Definition is_valid (s : string) : bool :=
  match parse s with
  | Some _ => true
  | None => false
  end.

(** Dotted-decimal IPv4: four numbers of at most three digits, each at most
    255. *)
Fixpoint split_dots (s : string) : list string :=
  match s with
  | EmptyString => [EmptyString]
  | String c r =>
      if Ascii.eqb c "." then EmptyString :: split_dots r
      else
        match split_dots r with
        | [] => [String c EmptyString]
        | w :: ws => String c w :: ws
        end
  end.

Definition octet (s : string) : option nat :=
  if String.length s <=? 3 then
    match decimal s with
    | Some n => if n <=? 255 then Some n else None
    | None => None
    end
  else None.

Definition ipv4 (h : string) : option (nat * nat * nat * nat) :=
  match map octet (split_dots h) with
  | [Some a; Some b; Some c; Some d] => Some (a, b, c, d)
  | _ => None
  end.

(** A host on the machine itself: the name [localhost] or an address of
    the loopback block 127.0.0.0/8. *)
Definition is_local_host (h : string) : bool :=
  String.eqb h "localhost" ||
  match ipv4 h with
  | Some (a, _, _, _) => a =? 127
  | None => false
  end.

(** Characters of a route as the application writes them: letters, digits,
    hyphen, underscore and the slash between segments. *)
Definition is_route_char (c : ascii) : bool :=
  is_alpha c || is_digit c || one_of "-_/" c.

End URL.

(** ** JSON text *)

(** [JSON.stringify] and [JSON.parse] (ECMA-262, section 25.5) on the values
    above.  Strings are byte strings; the parser accepts the whole string
    grammar but keeps only escapes that denote a character below 128, and it
    has no [null], numbers or arrays, which the value type cannot hold. *)
Module JSON.

Local Open Scope nat_scope.

Definition dquote : ascii := "034"%char.
Definition backslash : ascii := "092"%char.

Definition hex_digit (n : nat) : ascii :=
  if n <? 10 then ascii_of_nat (48 + n) else ascii_of_nat (87 + n).

(** [QuoteJSONString], one character. *)
Definition escape_char (c : ascii) : string :=
  let n := nat_of_ascii c in
  if Ascii.eqb c dquote then String backslash (String dquote EmptyString)
  else if Ascii.eqb c backslash
  then String backslash (String backslash EmptyString)
  else if n =? 8 then String backslash "b"
  else if n =? 9 then String backslash "t"
  else if n =? 10 then String backslash "n"
  else if n =? 12 then String backslash "f"
  else if n =? 13 then String backslash "r"
  else if n <? 32
  then String backslash
         (String "u" (String "0" (String "0"
            (String (hex_digit (n / 16))
               (String (hex_digit (n mod 16)) EmptyString)))))
  else String c EmptyString.

Fixpoint escape (s : string) : string :=
  match s with
  | EmptyString => EmptyString
  | String c r => (escape_char c ++ escape r)%string
  end.

Definition quote (s : string) : string :=
  String dquote (escape s ++ String dquote EmptyString)%string.

Fixpoint join (sep : string) (parts : list string) : string :=
  match parts with
  | [] => EmptyString
  | [p] => p
  | p :: rest => (p ++ sep ++ join sep rest)%string
  end.

(** [SerializeJSONProperty] without indentation: [undefined] has no text,
    and a property holding [undefined] is left out of its object. *)
Fixpoint stringify (v : value) : option string :=
  match v with
  | VUndefined => None
  | VBool true => Some "true"%string
  | VBool false => Some "false"%string
  | VString s => Some (quote s)
  | VObject ps =>
      let members :=
        (fix go (ps' : list (string * value)) : list string :=
           match ps' with
           | [] => []
           | (k, w) :: rest =>
               match stringify w with
               | Some text => (quote k ++ ":" ++ text)%string :: go rest
               | None => go rest
               end
           end) ps in
      Some ("{" ++ join "," members ++ "}")%string
  end.

Definition is_ws (c : ascii) : bool :=
  let n := nat_of_ascii c in
  (n =? 32) || (n =? 9) || (n =? 10) || (n =? 13).

Fixpoint skip_ws (s : string) : string :=
  match s with
  | EmptyString => EmptyString
  | String c r => if is_ws c then skip_ws r else s
  end.

Definition hex_value (c : ascii) : option nat :=
  let n := nat_of_ascii c in
  if (48 <=? n) && (n <=? 57) then Some (n - 48)
  else if (97 <=? n) && (n <=? 102) then Some (n - 87)
  else if (65 <=? n) && (n <=? 70) then Some (n - 55)
  else None.

Definition hex4 (a b c d : ascii) : option nat :=
  match hex_value a, hex_value b, hex_value c, hex_value d with
  | Some x, Some y, Some z, Some w => Some (((x * 16 + y) * 16 + z) * 16 + w)
  | _, _, _, _ => None
  end.

(** The character a single-letter escape stands for. *)
Definition unescape (e : ascii) : option ascii :=
  if Ascii.eqb e dquote then Some dquote
  else if Ascii.eqb e backslash then Some backslash
  else if Ascii.eqb e "/" then Some "/"%char
  else if Ascii.eqb e "b" then Some (ascii_of_nat 8)
  else if Ascii.eqb e "t" then Some (ascii_of_nat 9)
  else if Ascii.eqb e "n" then Some (ascii_of_nat 10)
  else if Ascii.eqb e "f" then Some (ascii_of_nat 12)
  else if Ascii.eqb e "r" then Some (ascii_of_nat 13)
  else None.

Definition cons_char (c : ascii) (r : option (string * string))
  : option (string * string) :=
  match r with
  | Some (str, rest) => Some (String c str, rest)
  | None => None
  end.

(** The characters of a string after its opening quote, up to and including
    the closing quote; raw control characters are refused. *)
Fixpoint parse_chars (s : string) : option (string * string) :=
  match s with
  | EmptyString => None
  | String c r =>
      if Ascii.eqb c dquote then Some (EmptyString, r)
      else if Ascii.eqb c backslash then
        match r with
        | EmptyString => None
        | String e r' =>
            if Ascii.eqb e "u" then
              match r' with
              | String h1 (String h2 (String h3 (String h4 r''))) =>
                  match hex4 h1 h2 h3 h4 with
                  | Some n =>
                      if n <? 128
                      then cons_char (ascii_of_nat n) (parse_chars r'')
                      else None
                  | None => None
                  end
              | _ => None
              end
            else
              match unescape e with
              | Some ch => cons_char ch (parse_chars r')
              | None => None
              end
        end
      else if nat_of_ascii c <? 32 then None
      else cons_char c (parse_chars r)
  end.

(** Recursive descent with a bound on the nesting and member count; every
    call consumes input, so the length of the text is bound enough. *)
Fixpoint parse_value (fuel : nat) (s : string) : option (value * string) :=
  match fuel with
  | 0 => None
  | S fuel' =>
      match skip_ws s with
      | EmptyString => None
      | String c r =>
          if Ascii.eqb c "{" then
            match skip_ws r with
            | String "}" r' => Some (VObject [], r')
            | r1 => parse_members fuel' r1 []
            end
          else if Ascii.eqb c dquote then
            match parse_chars r with
            | Some (str, r') => Some (VString str, r')
            | None => None
            end
          else
            match URL.strip_prefix "true" (String c r) with
            | Some r' => Some (VBool true, r')
            | None =>
                match URL.strip_prefix "false" (String c r) with
                | Some r' => Some (VBool false, r')
                | None => None
                end
            end
      end
  end
with parse_members (fuel : nat) (s : string) (acc : list (string * value))
  : option (value * string) :=
  match fuel with
  | 0 => None
  | S fuel' =>
      match skip_ws s with
      | EmptyString => None
      | String c r =>
          if Ascii.eqb c dquote then
            match parse_chars r with
            | None => None
            | Some (k, r1) =>
                match skip_ws r1 with
                | String ":" r2 =>
                    match parse_value fuel' r2 with
                    | None => None
                    | Some (v, r3) =>
                        let acc' := define_prop k v acc in
                        match skip_ws r3 with
                        | String "," r4 => parse_members fuel' r4 acc'
                        | String "}" r4 => Some (VObject acc', r4)
                        | _ => None
                        end
                    end
                | _ => None
                end
            end
          else None
      end
  end.

(** [JSON.parse text]: one value between optional white space. *)
Definition parse (text : string) : option value :=
  match parse_value (S (String.length text)) text with
  | Some (v, rest) =>
      match skip_ws rest with
      | EmptyString => Some v
      | String _ _ => None
      end
  | None => None
  end.

(** The member texts of an object, in own-key order. *)
Definition members_of (ps : list (string * value)) : list string :=
  flat_map (fun kv => match stringify (snd kv) with
                      | Some text => [(quote (fst kv) ++ ":" ++ text)%string]
                      | None => []
                      end) ps.

Fixpoint distinct (ks : list string) : bool :=
  match ks with
  | [] => true
  | k :: rest => negb (mem k rest) && distinct rest
  end.

(** Values that JSON text can carry: no [undefined] at any depth and no key
    twice in one object. *)
Fixpoint json_safe (v : value) : bool :=
  match v with
  | VUndefined => false
  | VBool _ | VString _ => true
  | VObject ps =>
      distinct (map fst ps)
      && (fix go (ps' : list (string * value)) : bool :=
            match ps' with
            | [] => true
            | (_, w) :: rest => json_safe w && go rest
            end) ps
  end.

(** Number of values and members, the recursion depth the parser needs. *)
Fixpoint size (v : value) : nat :=
  match v with
  | VObject ps =>
      S ((fix go (ps' : list (string * value)) : nat :=
            match ps' with
            | [] => 0
            | (_, w) :: rest => S (size w + go rest)
            end) ps)
  | _ => 1
  end.

End JSON.

(** The size of the members of an object, as [JSON.size] counts them. *)
Definition members_size (ps : list (string * value)) : nat :=
  fold_right (fun kv n => S (JSON.size (snd kv) + n)) 0 ps.

(** A value reads back when it has a text and the parser, given fuel for the
    size of the value, returns the value from the front of that text and
    leaves what follows it. *)
Definition reads_back (w : value) : Prop :=
  JSON.json_safe w = true ->
  exists text,
    JSON.stringify w = Some text
    /\ forall fuel rest, JSON.size w <= fuel ->
         JSON.parse_value fuel (text ++ rest) = Some (w, rest).

(** ** Declared types, assignability and the declared shape *)

(** The declared type of [v.k1. ... .kn], the indexed access type. *)
Fixpoint type_at (t : ty) (path : list string) : option ty :=
  match path with
  | [] => Some t
  | k :: rest =>
      match t with
      | TObject fs =>
          match lookup k fs with
          | Some t' => type_at t' rest
          | None => None
          end
      | _ => None
      end
  end.

(** No field name twice in an object type, at any depth. *)
Fixpoint ty_distinct (t : ty) : bool :=
  match t with
  | TObject fs =>
      JSON.distinct (map fst fs)
      && (fix go (fs' : list (string * ty)) : bool :=
            match fs' with
            | [] => true
            | (_, t') :: rest => ty_distinct t' && go rest
            end) fs
  | _ => true
  end.

Definition kind_of_ty (t : ty) : kind :=
  match t with
  | TBoolean => KBoolean
  | TString => KString
  | TObject _ => KObject
  end.

(** Assignability of a value to a type.  Object types are structural: a
    record belongs to the type when every declared field is there with a
    value assignable to the field's type, and it may have further fields.
    [undefined] is assignable to none of the three types.  [has_type] above
    is the stricter, exact check that also refuses further fields. *)
Fixpoint assignable (v : value) (t : ty) : bool :=
  match t, v with
  | TBoolean, VBool _ => true
  | TString, VString _ => true
  | TObject fs, VObject ps =>
      (fix fields_ok (fs' : list (string * ty)) : bool :=
         match fs' with
         | [] => true
         | (k, t') :: rest =>
             match lookup k ps with
             | Some w => assignable w t'
             | None => false
             end && fields_ok rest
         end) fs
  | _, _ => false
  end.

(** The declared fields of the source literal written out, path by path,
    each with the kind of value it holds (lines 6 to 12 of the source). *)
Definition declared_shape : list (list string * kind) :=
  [ (["production"], KBoolean);
    (["apiServerUrl"], KString);
    (["auth0"], KObject);
    (["auth0"; "url"], KString);
    (["auth0"; "audience"], KString);
    (["auth0"; "clientId"], KString);
    (["auth0"; "callbackURL"], KString) ].

Definition is_string (v : value) : bool :=
  match v with
  | VString _ => true
  | _ => false
  end.

(** The record with one more field, as
    [{ ...environment, extra: true }] builds it. *)
Definition environment_with_extra : value :=
  VObject (fields_of environment ++ [("extra", VBool true)]).

(** The store right after module load. *)
Definition loaded : store := [("environment", environment)].

(** The paths to the six scalar fields. *)
Definition leaf_paths : list (list string) := map fst (leaves environment).

(** ** Writes that reach a field *)

Fixpoint is_prefix (p q : list string) : bool :=
  match p, q with
  | [], _ => true
  | _ :: _, [] => false
  | a :: p', b :: q' => String.eqb a b && is_prefix p' q'
  end.

(** A write at [p] reaches what a read at [q] sees when it replaces the
    field itself, a record that holds it, or a property below it. *)
Definition overlaps (p q : list string) : bool :=
  is_prefix p q || is_prefix q p.



(** The operations that leave the declared shape alone: any read, and a
    write that stores at a declared field of [environment] a value
    assignable to the field's declared type. *)
Definition shape_keeping_op (o : op) : bool :=
  match o with
  | OpGet _ _ => true
  | OpSet name path w =>
      String.eqb name "environment"
      && match path, type_at environment_type path with
         | _ :: _, Some t => assignable w t
         | _, _ => false
         end
  end.

(** * Properties *)

(** ** Lookup and typing lemmas *)

Section Lookup.
Context {A : Type}.
Implicit Types (k : string) (ps : list (string * A)).

Lemma lookup_some_in k ps a : lookup k ps = Some a -> In (k, a) ps.
Proof.
  induction ps as [|[k' a'] ps IH]; simpl; [discriminate|].
  destruct (String.eqb k k') eqn:E.
  - apply String.eqb_eq in E. intros [= ->]. subst. now left.
  - intros H. right. now apply IH.
Qed.

Lemma lookup_some_key k ps a : lookup k ps = Some a -> In k (map fst ps).
Proof.
  intros H. apply lookup_some_in in H.
  change k with (fst (k, a)). now apply in_map.
Qed.

Lemma lookup_none_mem k ps : lookup k ps = None -> mem k (map fst ps) = false.
Proof.
  induction ps as [|[k' a'] ps IH]; simpl; [reflexivity|].
  destruct (String.eqb k k'); [discriminate|]. exact IH.
Qed.
End Lookup.

Lemma ty_nested_ind (P : ty -> Prop) :
  P TBoolean -> P TString ->
  (forall fs, Forall (fun kt => P (snd kt)) fs -> P (TObject fs)) ->
  forall t, P t.
Proof.
  intros HB HS HO. fix IH 1. intros [| |fs]; [exact HB|exact HS|].
  apply HO. induction fs as [|[k t] fs IHfs]; constructor; [apply IH|exact IHfs].
Qed.

(** ** Reads and writes on the store *)

Lemma step_get_store st name path st' v :
  step st (OpGet name path) = Ok (st', v) -> st' = st.
Proof.
  simpl. destruct (read st name path); simpl; [|discriminate]. now intros [= <- _].
Qed.

(** The object is neither frozen nor typed [readonly]: a property write by
    any holder of the binding goes through and later reads see it. *)
Lemma unfrozen_write_is_visible :
  read (run [("environment", environment)]
            [OpSet "environment" ["production"] (VBool true)])
       "environment" ["production"] = Ok (VBool true).
Proof. reflexivity. Qed.

(** The binding itself is constant: assigning to it throws. *)
Lemma const_binding_not_assignable st w :
  step st (OpSet "environment" [] w) = Throw TypeError \/
  step st (OpSet "environment" [] w) = Throw ReferenceError.
Proof. simpl. destruct (lookup "environment" st); auto. Qed.

(** ** URL lemmas *)

Lemma span_app p s : let (a, b) := URL.span p s in s = (a ++ b)%string.
Proof.
  induction s as [|c s IH]; simpl; [reflexivity|].
  destruct (p c); [|reflexivity].
  destruct (URL.span p s) as [a b]. simpl. now rewrite <- IH.
Qed.

Lemma contains_app_r c a b :
  URL.contains c b = true -> URL.contains c (a ++ b)%string = true.
Proof.
  intros H. induction a as [|x a IH]; simpl; [exact H|].
  rewrite IH. apply orb_true_r.
Qed.

Lemma strip_prefix_app pre : forall s r,
  URL.strip_prefix pre s = Some r -> s = (pre ++ r)%string.
Proof.
  induction pre as [|a pre IH]; intros s r; simpl.
  - now intros [= ->].
  - destruct s as [|b s]; [discriminate|].
    destruct (Ascii.eqb a b) eqn:E; [|discriminate].
    apply Ascii.eqb_eq in E. subst b. intros H. now rewrite (IH _ _ H).
Qed.

(** Whatever the recogniser accepts has a colon after its scheme, so a text
    without a colon is no absolute URL. *)
Lemma parse_needs_colon s u :
  URL.parse s = Some u -> URL.contains ":" s = true.
Proof.
  unfold URL.parse. pose proof (span_app URL.is_scheme_char s) as Hs.
  destruct (URL.span URL.is_scheme_char s) as [sch r1].
  destruct sch as [|c sch]; [discriminate|].
  destruct (URL.is_alpha c); [|discriminate].
  destruct (URL.strip_prefix "://" r1) as [r2|] eqn:E; [|discriminate].
  apply strip_prefix_app in E. intros _. subst s r1.
  apply contains_app_r. reflexivity.
Qed.

(** ** JSON lemmas *)

Lemma append_assoc (a b c : string) : ((a ++ b) ++ c = a ++ (b ++ c))%string.
Proof. induction a as [|x a IH]; simpl; [reflexivity|]. now rewrite IH. Qed.

Lemma length_append (a b : string) :
  String.length (a ++ b) = String.length a + String.length b.
Proof. induction a as [|x a IH]; simpl; [reflexivity|]. now rewrite IH. Qed.

Lemma value_nested_ind (P : value -> Prop) :
  P VUndefined -> (forall b, P (VBool b)) -> (forall s, P (VString s)) ->
  (forall ps, Forall (fun kv => P (snd kv)) ps -> P (VObject ps)) ->
  forall v, P v.
Proof.
  intros HU HB HS HO. fix IH 1. intros [|b|s|ps]; [exact HU|apply HB|apply HS|].
  apply HO. induction ps as [|[k w] ps IHps]; constructor; [apply IH|exact IHps].
Qed.

(** One escaped character reads back as the character. *)
Lemma parse_chars_escape_char c rest :
  JSON.parse_chars (JSON.escape_char c ++ rest)
  = JSON.cons_char c (JSON.parse_chars rest).
Proof. destruct c as [[] [] [] [] [] [] [] []]; reflexivity. Qed.

Lemma parse_chars_escape s rest :
  JSON.parse_chars (JSON.escape s ++ String JSON.dquote rest) = Some (s, rest).
Proof.
  induction s as [|c s IH]; [reflexivity|].
  cbn [JSON.escape]. rewrite append_assoc, parse_chars_escape_char, IH.
  reflexivity.
Qed.

Lemma stringify_object ps :
  JSON.stringify (VObject ps)
  = Some ("{" ++ JSON.join "," (JSON.members_of ps) ++ "}")%string.
Proof.
  cbn [JSON.stringify].
  match goal with
  | |- context [JSON.join _ (?f ps)] =>
      assert (E : forall l, f l = JSON.members_of l)
  end.
  { induction l as [|[k w] l IH]; [reflexivity|].
    unfold JSON.members_of in *. cbn -[JSON.quote append]. rewrite IH.
    now destruct (JSON.stringify w). }
  now rewrite E.
Qed.

Lemma json_safe_object ps :
  JSON.json_safe (VObject ps)
  = JSON.distinct (map fst ps) && forallb (fun kv => JSON.json_safe (snd kv)) ps.
Proof.
  simpl. f_equal. induction ps as [|[k w] ps IH]; simpl; [reflexivity|].
  now rewrite IH.
Qed.


Lemma size_object ps : JSON.size (VObject ps) = S (members_size ps).
Proof.
  simpl. f_equal. induction ps as [|[k w] ps IH]; simpl; [reflexivity|].
  now rewrite IH.
Qed.

Lemma define_prop_fresh {A} k (a : A) ps :
  lookup k ps = None -> define_prop k a ps = (ps ++ [(k, a)])%list.
Proof.
  induction ps as [|[k' a'] ps IH]; simpl; [reflexivity|].
  destruct (String.eqb k k'); [discriminate|]. intros H. now rewrite IH.
Qed.

Lemma parse_value_open fuel r :
  JSON.parse_value (S fuel) (String "{" r) =
  match JSON.skip_ws r with
  | String "}" r' => Some (VObject [], r')
  | r1 => JSON.parse_members fuel r1 []
  end.
Proof. reflexivity. Qed.

Lemma parse_value_quote fuel s rest :
  JSON.parse_value (S fuel) (JSON.quote s ++ rest) = Some (VString s, rest).
Proof.
  unfold JSON.quote. cbn [append]. rewrite append_assoc. 
  change (match JSON.parse_chars (JSON.escape s ++ String JSON.dquote rest) with
          | Some (str, r') => Some (VString str, r')
          | None => None
          end = Some (VString s, rest)).
  now rewrite parse_chars_escape.
Qed.

Lemma parse_member fuel k text w rest acc :
  JSON.parse_value fuel (text ++ rest) = Some (w, rest) ->
  JSON.parse_members (S fuel) (JSON.quote k ++ String ":" (text ++ rest)) acc =
  match JSON.skip_ws rest with
  | String "," r4 => JSON.parse_members fuel r4 (define_prop k w acc)
  | String "}" r4 => Some (VObject (define_prop k w acc), r4)
  | _ => None
  end.
Proof.
  intros H. unfold JSON.quote. cbn [append]. rewrite append_assoc.
  match goal with |- _ = ?rhs => change (match JSON.parse_chars (JSON.escape k ++ String JSON.dquote (":" ++ text ++ rest)) with
          | None => None
          | Some (k0, r1) =>
              match JSON.skip_ws r1 with
              | String ":" r2 =>
                  match JSON.parse_value fuel r2 with
                  | None => None
                  | Some (v, r3) =>
                      let acc' := define_prop k0 v acc in
                      match JSON.skip_ws r3 with
                      | String "," r4 => JSON.parse_members fuel r4 acc'
                      | String "}" r4 => Some (VObject acc', r4)
                      | _ => None
                      end
                  end
              | _ => None
              end
          end = rhs) end.
  rewrite parse_chars_escape.
  change (JSON.skip_ws (":" ++ text ++ rest)) with (String ":" (text ++ rest)).
  cbv iota beta. rewrite H. reflexivity.
Qed.

Ltac canon := rewrite ?append_assoc; cbn [append].

Lemma lookup_app_fresh {A} k k' (a : A) ps :
  lookup k ps = None -> String.eqb k k' = false ->
  lookup k (ps ++ [(k', a)])%list = None.
Proof.
  intros H E. induction ps as [|[k0 a0] ps IH]; simpl in *.
  - now rewrite E.
  - destruct (String.eqb k k0); [discriminate|]. now apply IH.
Qed.

Lemma mem_false_neq k k' ks :
  mem k ks = false -> In k' ks -> String.eqb k' k = false.
Proof.
  unfold mem. intros H Hin. destruct (String.eqb k' k) eqn:E; [|reflexivity].
  apply String.eqb_eq in E. subst k'.
  assert (existsb (String.eqb k) ks = true) as C.
  { apply existsb_exists. exists k. split; [exact Hin|apply String.eqb_refl]. }
  congruence.
Qed.

Lemma members_of_cons k w text ps :
  JSON.stringify w = Some text ->
  JSON.members_of ((k, w) :: ps)
  = (JSON.quote k ++ ":" ++ text)%string :: JSON.members_of ps.
Proof. intros H. unfold JSON.members_of. simpl. now rewrite H. Qed.

Lemma skip_ws_other c r :
  JSON.is_ws c = false -> JSON.skip_ws (String c r) = String c r.
Proof. intros H. simpl. now rewrite H. Qed.

Lemma join_cons sep m ms :
  ms <> [] -> JSON.join sep (m :: ms) = (m ++ sep ++ JSON.join sep ms)%string.
Proof. destruct ms; [congruence|reflexivity]. Qed.

Lemma parse_members_stringify ps :
  Forall (fun kv => reads_back (snd kv)) ps ->
  forallb (fun kv => JSON.json_safe (snd kv)) ps = true ->
  ps <> [] ->
  forall fuel rest acc,
    members_size ps <= fuel ->
    JSON.distinct (map fst ps) = true ->
    (forall k, In k (map fst ps) -> lookup k acc = None) ->
    JSON.parse_members fuel
      (JSON.join "," (JSON.members_of ps) ++ String "}" rest) acc
    = Some (VObject (acc ++ ps), rest).
Proof.
  induction ps as [|[k w] ps IH]; [congruence|].
  intros HF Hsafe _ fuel rest acc Hfuel Hd Hacc.
  inversion HF as [|? ? Hw HF']; subst. simpl in Hw.
  simpl in Hsafe. apply andb_true_iff in Hsafe as [Hsw Hsafe].
  destruct (Hw Hsw) as (text & Htext & Hparse).
  simpl in Hd. apply andb_true_iff in Hd as [Hk Hd].
  apply negb_true_iff in Hk.
  simpl in Hfuel. destruct fuel as [|fuel]; [lia|].
  assert (Hfresh : define_prop k w acc = (acc ++ [(k, w)])%list).
  { apply define_prop_fresh, Hacc. now left. }
  rewrite (members_of_cons _ _ _ _ Htext).
  destruct ps as [|[k2 w2] ps].
  - cbn [JSON.members_of flat_map JSON.join]. canon.
    rewrite (parse_member fuel k text w (String "}" rest) acc)
      by (apply Hparse; lia).
    rewrite skip_ws_other by reflexivity. cbv iota beta. now rewrite Hfresh.
  - inversion HF' as [|? ? Hw2 _]; subst. simpl in Hw2.
    pose proof Hsafe as Hsafe2. simpl in Hsafe2.
    apply andb_true_iff in Hsafe2 as [Hsw2 _].
    destruct (Hw2 Hsw2) as (text2 & Htext2 & _).
    pose proof (members_of_cons k2 w2 text2 ps Htext2) as E2.
    specialize (IH HF' Hsafe ltac:(discriminate) fuel rest (acc ++ [(k, w)])%list).
    set (later := JSON.members_of ((k2, w2) :: ps)) in *.
    rewrite join_cons by (rewrite E2; discriminate). canon.
    rewrite (parse_member fuel k text w _ acc) by (apply Hparse; lia).
    rewrite skip_ws_other by reflexivity. cbv iota beta.
    rewrite Hfresh, IH; [|simpl in *; lia|exact Hd|].
    + now rewrite <- app_assoc.
    + intros k' Hin. apply lookup_app_fresh.
      * apply Hacc. now right.
      * now apply (mem_false_neq _ _ _ Hk).
Qed.

Lemma join_starts_quoted k text ms rest :
  exists tl,
    (JSON.join "," ((JSON.quote k ++ ":" ++ text)%string :: ms) ++ rest)%string
    = String JSON.dquote tl.
Proof. destruct ms; unfold JSON.quote; cbn [JSON.join append]; eauto. Qed.

Lemma parse_value_stringify v : reads_back v.
Proof.
  induction v as [|b|s|ps IH] using value_nested_ind; intros Hsafe.
  - discriminate.
  - destruct b; eexists; (split; [reflexivity|]);
      intros [|fuel] rest Hfuel; simpl in Hfuel; try lia; reflexivity.
  - eexists. split; [reflexivity|].
    intros [|fuel] rest Hfuel; simpl in Hfuel; try lia.
    apply parse_value_quote.
  - rewrite json_safe_object in Hsafe.
    apply andb_true_iff in Hsafe as [Hd Hsafe].
    eexists. split; [apply stringify_object|].
    intros fuel rest Hfuel. rewrite size_object in Hfuel.
    destruct fuel as [|fuel]; [lia|]. canon. rewrite parse_value_open.
    destruct ps as [|[k w] ps]; [reflexivity|].
    pose proof (parse_members_stringify _ IH Hsafe ltac:(discriminate)
                  fuel rest [] ltac:(lia) Hd (fun _ _ => eq_refl)) as Hm.
    simpl in Hsafe. apply andb_true_iff in Hsafe as [Hsw _].
    inversion IH as [|? ? Hw _]; subst.
    destruct (Hw Hsw) as (text & Htext & _). simpl in Htext.
    rewrite (members_of_cons _ _ _ _ Htext) in *.
    destruct (join_starts_quoted k text (JSON.members_of ps) (String "}" rest))
      as [tl Etl].
    rewrite Etl in *. rewrite skip_ws_other by reflexivity. exact Hm.
Qed.

Lemma quote_length s : 2 <= String.length (JSON.quote s).
Proof. unfold JSON.quote. simpl. rewrite length_append. simpl. lia. Qed.

Lemma join_length sep m ms :
  String.length m + String.length (JSON.join sep ms)
  <= String.length (JSON.join sep (m :: ms)).
Proof.
  destruct ms as [|m' ms]; [simpl; lia|].
  rewrite (join_cons sep m (m' :: ms)) by discriminate.
  rewrite !length_append. lia.
Qed.

(** The text of a value is at least as long as the value is large, so the
    fuel [JSON.parse] starts with is enough. *)
Lemma size_le_length v :
  JSON.json_safe v = true ->
  forall text, JSON.stringify v = Some text -> JSON.size v <= String.length text.
Proof.
  induction v as [|b|s|ps IH] using value_nested_ind; intros Hsafe text Ht.
  - discriminate.
  - destruct b; injection Ht as <-; simpl; lia.
  - injection Ht as <-. pose proof (quote_length s). simpl. lia.
  - rewrite stringify_object in Ht. injection Ht as <-.
    rewrite json_safe_object in Hsafe.
    apply andb_true_iff in Hsafe as [_ Hsafe].
    rewrite size_object. cbn [append String.length]. rewrite length_append.
    enough (members_size ps <= String.length (JSON.join "," (JSON.members_of ps)))
      by (simpl; lia).
    induction ps as [|[k w] ps IHps]; [simpl; lia|].
    inversion IH as [|? ? Hw IH']; subst. simpl in Hw.
    simpl in Hsafe. apply andb_true_iff in Hsafe as [Hsw Hsafe].
    destruct (parse_value_stringify w Hsw) as (t & Et & _).
    rewrite (members_of_cons _ _ _ _ Et).
    pose proof (join_length "," (JSON.quote k ++ ":" ++ t)
                  (JSON.members_of ps)) as Hj.
    rewrite !length_append in Hj. pose proof (quote_length k).
    specialize (Hw Hsw t Et). specialize (IHps IH' Hsafe).
    simpl in *. lia.
Qed.

Lemma append_empty s : (s ++ "")%string = s.
Proof. induction s as [|c s IH]; simpl; [reflexivity|]. now rewrite IH. Qed.

(** Every value JSON can carry comes back from its own text. *)
Lemma json_parse_stringify v :
  JSON.json_safe v = true ->
  exists text, JSON.stringify v = Some text /\ JSON.parse text = Some v.
Proof.
  intros Hsafe. destruct (parse_value_stringify v Hsafe) as (text & Ht & Hp).
  exists text. split; [exact Ht|]. unfold JSON.parse.
  pose proof (size_le_length v Hsafe text Ht) as Hlen.
  specialize (Hp (S (String.length text)) EmptyString ltac:(lia)).
  rewrite append_empty in Hp. now rewrite Hp.
Qed.

(** ** Property definition and lookup *)

Section DefineProp.
Context {A : Type}.
Implicit Types (k : string) (ps : list (string * A)).

Lemma lookup_define_same k a ps : lookup k (define_prop k a ps) = Some a.
Proof.
  induction ps as [|[k' a'] ps IH]; simpl.
  - now rewrite String.eqb_refl.
  - destruct (String.eqb k k') eqn:E; simpl.
    + now rewrite String.eqb_refl.
    + now rewrite E.
Qed.

Lemma lookup_define_other k k' a ps :
  String.eqb k' k = false -> lookup k' (define_prop k a ps) = lookup k' ps.
Proof.
  intros N. induction ps as [|[k0 a0] ps IH]; simpl.
  - now rewrite N.
  - destruct (String.eqb k k0) eqn:E; simpl.
    + apply String.eqb_eq in E. subst k0. now rewrite N.
    + now rewrite IH.
Qed.

Lemma distinct_in_lookup k a ps :
  JSON.distinct (map fst ps) = true -> In (k, a) ps -> lookup k ps = Some a.
Proof.
  induction ps as [|[k0 a0] ps IH]; simpl; [tauto|].
  intros H [E|Hin].
  - injection E as -> ->. now rewrite String.eqb_refl.
  - apply andb_true_iff in H as [H0 H]. apply negb_true_iff in H0.
    assert (In k (map fst ps)) as Hk
      by (change k with (fst (k, a)); now apply in_map).
    now rewrite (mem_false_neq _ _ _ H0 Hk), IH.
Qed.
End DefineProp.

Lemma set_path_nested ps k k2 rest w :
  set_path (VObject ps) (k :: k2 :: rest) w
  = (inner <- get (VObject ps) k ;;
     inner' <- set_path inner (k2 :: rest) w ;;
     Ok (VObject (define_prop k inner' ps))).
Proof. reflexivity. Qed.

Lemma get_path_cons ps k rest :
  get_path (VObject ps) (k :: rest)
  = match lookup k ps with
    | Some w => get_path w rest
    | None => get_path VUndefined rest
    end.
Proof. cbn [get_path get]. now destruct (lookup k ps). Qed.

(** ** Assignability *)

Lemma assignable_object ps fs :
  assignable (VObject ps) (TObject fs) =
  forallb (fun kt => match lookup (fst kt) ps with
                     | Some w => assignable w (snd kt)
                     | None => false
                     end) fs.
Proof.
  simpl. induction fs as [|[k t] fs IH]; simpl; [reflexivity|].
  now rewrite IH.
Qed.

Lemma assignable_field ps fs k t :
  assignable (VObject ps) (TObject fs) = true -> lookup k fs = Some t ->
  exists w, lookup k ps = Some w /\ assignable w t = true.
Proof.
  rewrite assignable_object. intros H Hk.
  rewrite forallb_forall in H.
  specialize (H _ (lookup_some_in _ _ _ Hk)). simpl in H.
  destruct (lookup k ps) as [w|]; [|discriminate]. now exists w.
Qed.

Lemma assignable_kind v t : assignable v t = true -> kind_of v = kind_of_ty t.
Proof. destruct t, v; simpl; try discriminate; reflexivity. Qed.

(** A record assignable to a type answers the read of every declared path
    with a value assignable to the type declared there. *)
Lemma assignable_read path : forall t v t',
  assignable v t = true -> type_at t path = Some t' ->
  exists w, get_path v path = Ok w /\ assignable w t' = true.
Proof.
  induction path as [|k rest IH]; intros t v t' Hv Ht.
  - injection Ht as <-. now exists v.
  - destruct t as [| |fs]; try discriminate.
    destruct v as [| | |ps]; try discriminate.
    cbn [type_at] in Ht. destruct (lookup k fs) as [t1|] eqn:Hk; [|discriminate].
    destruct (assignable_field _ _ _ _ Hv Hk) as (w1 & Hw1 & Ha1).
    rewrite get_path_cons, Hw1. exact (IH t1 w1 t' Ha1 Ht).
Qed.

Lemma assignable_shape path t v t' :
  assignable v t = true -> type_at t path = Some t' ->
  shape_at v path = Some (kind_of_ty t').
Proof.
  intros Hv Ht. destruct (assignable_read path t v t' Hv Ht) as (w & Hg & Hw).
  unfold shape_at. rewrite Hg. now rewrite (assignable_kind _ _ Hw).
Qed.

(** Every record assignable to the environment type has the declared
    fields with the declared kinds. *)
Lemma declared_shape_of_assignable v :
  assignable v environment_type = true ->
  Forall (fun pk => shape_at v (fst pk) = Some (snd pk)) declared_shape.
Proof.
  intros Hv. unfold declared_shape.
  repeat (apply Forall_cons;
    [cbn [fst snd];
     erewrite (assignable_shape _ environment_type v) by (exact Hv || reflexivity);
     reflexivity|]).
  apply Forall_nil.
Qed.

Lemma ty_distinct_object fs :
  ty_distinct (TObject fs)
  = JSON.distinct (map fst fs) && forallb (fun kt => ty_distinct (snd kt)) fs.
Proof.
  simpl. f_equal. induction fs as [|[k t] fs IH]; simpl; [reflexivity|].
  now rewrite IH.
Qed.

(** Replacing the value of a declared field by one assignable to the field's
    type keeps the record assignable. *)
Lemma assignable_define_prop ps fs k t w :
  JSON.distinct (map fst fs) = true ->
  assignable (VObject ps) (TObject fs) = true ->
  lookup k fs = Some t -> assignable w t = true ->
  assignable (VObject (define_prop k w ps)) (TObject fs) = true.
Proof.
  intros Hd Hv Hk Hw. rewrite assignable_object in *.
  rewrite forallb_forall in *. intros [k' t'] Hin. simpl.
  destruct (String.eqb k' k) eqn:E.
  - apply String.eqb_eq in E. subst k'. rewrite lookup_define_same.
    rewrite (distinct_in_lookup _ _ _ Hd Hin) in Hk. now injection Hk as ->.
  - rewrite (lookup_define_other _ _ _ _ E). exact (Hv _ Hin).
Qed.

Lemma assignable_write t : forall path v t' w,
  ty_distinct t = true ->
  assignable v t = true -> type_at t path = Some t' -> path <> [] ->
  assignable w t' = true ->
  exists v', set_path v path w = Ok v'
             /\ assignable v' t = true
             /\ get_path v' path = Ok w.
Proof.
  induction t as [| |fs IH] using ty_nested_ind;
    intros path v t' w Hd Hv Hp Hne Hw;
    (destruct path as [|k rest]; [congruence|]); try discriminate.
  destruct v as [| | |ps]; try discriminate.
  rewrite ty_distinct_object in Hd. apply andb_true_iff in Hd as [Hd Hdeep].
  cbn [type_at] in Hp. destruct (lookup k fs) as [t1|] eqn:Hk; [|discriminate].
  destruct rest as [|k2 rest].
  - injection Hp as ->. eexists. split; [reflexivity|]. split.
    + now apply (assignable_define_prop _ _ _ t').
    + cbn. now rewrite lookup_define_same.
  - destruct (assignable_field _ _ _ _ Hv Hk) as (inner & Hin & Hti).
    rewrite Forall_forall in IH. rewrite forallb_forall in Hdeep.
    pose proof (lookup_some_in _ _ _ Hk) as Hmem.
    destruct (IH _ Hmem (k2 :: rest) inner t' w (Hdeep _ Hmem) Hti Hp
                ltac:(discriminate) Hw) as (inner' & Hset & Hty & Hget).
    exists (VObject (define_prop k inner' ps)). split; [|split].
    + rewrite set_path_nested. unfold get. rewrite Hin. cbn [bind].
      rewrite Hset. reflexivity.
    + now apply (assignable_define_prop _ _ _ t1).
    + rewrite get_path_cons, lookup_define_same. exact Hget.
Qed.

(** ** The binding and the fields under arbitrary operations *)

Lemma set_path_object ps k rest w v' :
  set_path (VObject ps) (k :: rest) w = Ok v' -> exists ps', v' = VObject ps'.
Proof.
  destruct rest as [|k2 rest].
  - simpl. intros [= <-]. eauto.
  - rewrite set_path_nested.
    destruct (get (VObject ps) k) as [inner|]; [|discriminate]. cbn [bind].
    destruct (set_path inner (k2 :: rest) w) as [inner'|]; [|discriminate].
    cbn [bind]. intros [= <-]. eauto.
Qed.

Lemma step_keeps_binding ps o st' r :
  step [("environment", VObject ps)] o = Ok (st', r) ->
  exists ps', st' = [("environment", VObject ps')].
Proof.
  destruct o as [name path|name path w].
  - intros H. apply step_get_store in H. subst. eauto.
  - cbn [step lookup].
    destruct (String.eqb name "environment") eqn:E; [|discriminate].
    apply String.eqb_eq in E. subst name.
    destruct path as [|k rest]; [discriminate|].
    destruct (set_path (VObject ps) (k :: rest) w) as [v'|] eqn:Hs;
      [|discriminate].
    destruct (set_path_object _ _ _ _ _ Hs) as [ps' ->].
    cbn. intros [= <- _]. eauto.
Qed.

Lemma run_keeps_binding ops : forall ps,
  exists ps', run [("environment", VObject ps)] ops
              = [("environment", VObject ps')].
Proof.
  induction ops as [|o ops IH]; intros ps; [simpl; eauto|].
  cbn [run].
  destruct (step [("environment", VObject ps)] o) as [[st' r]|e] eqn:E.
  - destruct (step_keeps_binding _ _ _ _ E) as [ps' ->]. apply IH.
  - apply IH.
Qed.


Lemma overlaps_cons_other k k' p q :
  String.eqb k' k = false -> overlaps (k :: p) (k' :: q) = false.
Proof.
  intros N. unfold overlaps. cbn [is_prefix].
  now rewrite N, (String.eqb_sym k k'), N.
Qed.





(** ** The claims *)

(** C1. The exported record has exactly the fields of the data model with
    their types: [production] is a boolean, [apiServerUrl] a string and
    [auth0] a record whose fields [url], [audience], [clientId] and
    [callbackURL] are strings; none is missing and there is no other. *)
Theorem environment_exposes_declared_fields :
  environment_type =
    TObject
      [ ("production", TBoolean);
        ("apiServerUrl", TString);
        ("auth0",
          TObject
            [ ("url", TString); ("audience", TString);
              ("clientId", TString); ("callbackURL", TString) ]) ]
  /\ has_type environment environment_type = true
  /\ own_keys environment = ["production"; "apiServerUrl"; "auth0"]
  /\ (exists b, get environment "production" = Ok (VBool b))
  /\ (exists s, get environment "apiServerUrl" = Ok (VString s))
  /\ (exists a,
        get environment "auth0" = Ok a
        /\ own_keys a = ["url"; "audience"; "clientId"; "callbackURL"]
        /\ Forall (fun k => exists s, get a k = Ok (VString s)) (own_keys a)).
Proof.
  repeat split.
  - now exists false.
  - now exists "http://127.0.0.1:5000".
  - eexists. split; [reflexivity|]. split; [reflexivity|].
    cbn. repeat constructor; eexists; reflexivity.
Qed.

(** C2, as the specification words it: five scalar fields at the top level
    next to the nested record of four.  The literal has two. *)
Lemma environment_not_five_scalars :
  ~ (scalar_fields environment = 5
     /\ record_fields environment = 1
     /\ exists a, get environment "auth0" = Ok a /\ scalar_fields a = 4).
Proof. intros [H _]. vm_compute in H. discriminate. Qed.

(** C2, amended. The top-level record has three fields: the two scalars
    [production] and [apiServerUrl] and the one nested record [auth0]; the
    nested record has the four scalar fields [url], [audience], [clientId]
    and [callbackURL] and no record below it.  That makes six scalar fields
    in all, and five of them, all but [production], hold strings. *)
Theorem environment_field_counts :
  length (fields_of environment) = 3
  /\ scalar_fields environment = 2
  /\ record_fields environment = 1
  /\ map fst (filter (fun kv => is_scalar (snd kv)) (fields_of environment))
     = ["production"; "apiServerUrl"]
  /\ map fst (filter (fun kv => is_record (snd kv)) (fields_of environment))
     = ["auth0"]
  /\ (exists a,
        get environment "auth0" = Ok a
        /\ length (fields_of a) = 4
        /\ scalar_fields a = 4
        /\ record_fields a = 0
        /\ map fst (filter (fun kv => is_scalar (snd kv)) (fields_of a))
           = ["url"; "audience"; "clientId"; "callbackURL"])
  /\ length (leaves environment) = 6
  /\ Forall (fun pv => is_scalar (snd pv) = true) (leaves environment)
  /\ map fst (filter (fun pv => is_string (snd pv)) (leaves environment))
     = string_field_paths
  /\ length (filter (fun pv => is_string (snd pv)) (leaves environment)) = 5
  /\ map fst (filter (fun pv => negb (is_string (snd pv))) (leaves environment))
     = [ ["production"] ].
Proof.
  do 5 (split; [reflexivity|]).
  split; [eexists; repeat split|].
  do 2 (split; [try reflexivity|]).
  - cbn. repeat constructor.
  - repeat split.
Qed.

(** C3. Each of the five string fields is present and holds a non-empty
    string, and among all fields only [production] is not a string: it is a
    boolean. *)
Theorem string_fields_non_empty :
  Forall (fun p => exists s, get_path environment p = Ok (VString s)
                             /\ String.length s <> 0)
         string_field_paths
  /\ map fst (leaves environment) = (["production"] :: string_field_paths)%list
  /\ Forall (fun pv =>
               (fst pv = ["production"] /\ kind_of (snd pv) = KBoolean)
               \/ (In (fst pv) string_field_paths
                   /\ kind_of (snd pv) = KString))
            (leaves environment).
Proof.
  split; [|split].
  - repeat constructor; eexists; (split; [reflexivity|cbn; discriminate]).
  - reflexivity.
  - cbn. repeat (apply Forall_cons; [cbn; auto 12|]). apply Forall_nil.
Qed.

(** C4. [apiServerUrl] and [auth0.callbackURL] are syntactically valid
    absolute URLs: each parses, with a scheme and a host. *)
Theorem api_and_callback_are_urls :
  Forall (fun p => exists s u,
            get_path environment p = Ok (VString s)
            /\ URL.parse s = Some u
            /\ URL.scheme u <> EmptyString
            /\ URL.host u <> EmptyString)
         [ ["apiServerUrl"]; ["auth0"; "callbackURL"] ].
Proof.
  repeat constructor; do 2 eexists;
    (split; [reflexivity|split; [vm_compute; reflexivity|split; cbn; discriminate]]).
Qed.

(** C5. The record has a JSON text, and parsing that text gives the record
    back. *)
Theorem json_round_trip :
  exists text,
    JSON.stringify environment = Some text
    /\ JSON.parse text = Some environment.
Proof. apply json_parse_stringify. reflexivity. Qed.




(** C7, as the specification words it: every record of the type has exactly
    the field names of [environment].  The type is structural, and a record
    with one more field belongs to it. *)
Lemma extra_field_changes_shape :
  assignable environment_with_extra environment_type = true
  /\ own_keys environment_with_extra <> own_keys environment
  /\ shape_at environment_with_extra ["extra"]
     <> shape_at environment ["extra"].
Proof. split; [reflexivity|]. split; cbn; discriminate. Qed.

(** C7, amended. Every record of the environment type, a production variant
    among them, has each declared field with its declared type, as
    [environment] has: [production] a boolean, [apiServerUrl] a string,
    [auth0] a record with the strings [url], [audience], [clientId] and
    [callbackURL].  Such records differ in the values of these fields, and
    may have further fields. *)
Theorem declared_fields_of_every_record (v : value) :
  assignable v environment_type = true ->
  Forall (fun pk => shape_at v (fst pk) = Some (snd pk)
                    /\ shape_at environment (fst pk) = Some (snd pk))
         declared_shape.
Proof.
  intros Hv. pose proof (declared_shape_of_assignable v Hv) as H.
  rewrite Forall_forall in *. intros pk Hin. split; [exact (H pk Hin)|].
  revert pk Hin. rewrite <- Forall_forall.
  unfold declared_shape. repeat constructor.
Qed.

(** A production build of the record, its fields in another order and with
    a field the development record lacks. *)
Lemma declared_fields_of_every_record_witness :
  let production_variant :=
    VObject
      [ ("auth0",
          VObject
            [ ("clientId", VString "0123456789abcdef");
              ("url", VString "example.eu");
              ("callbackURL", VString "https://app.example.com");
              ("audience", VString "drinks") ]);
        ("production", VBool true);
        ("sentryDsn", VString "https://key@errors.example.com/1");
        ("apiServerUrl", VString "https://api.example.com") ] in
  assignable production_variant environment_type = true
  /\ Forall (fun pk => shape_at production_variant (fst pk) = Some (snd pk)
                       /\ shape_at environment (fst pk) = Some (snd pk))
            declared_shape.
Proof.
  intros pv. split; [reflexivity|].
  apply (declared_fields_of_every_record pv). reflexivity.
Defined.

(** C8. Loading the module does not fail, and the read of each declared
    field of the loaded binding ([production], [apiServerUrl], [auth0] and
    the four fields of [auth0]) succeeds with a value of the field's kind,
    never with [undefined]; the record has no other field. *)
Theorem load_and_reads_total :
  exists st,
    load_module = Ok st
    /\ field_paths environment = map fst declared_shape
    /\ Forall (fun pk => exists v, read st "environment" (fst pk) = Ok v
                                   /\ kind_of v = snd pk
                                   /\ kind_of v <> KUndefined)
              declared_shape.
Proof.
  eexists. split; [reflexivity|]. split; [reflexivity|].
  unfold declared_shape.
  repeat (apply Forall_cons;
    [eexists; split; [reflexivity|]; split; [reflexivity|cbn; discriminate]|]).
  apply Forall_nil.
Qed.

(** C9. The record is a development configuration: [production] is false,
    [apiServerUrl] is http://127.0.0.1:5000 and [auth0.callbackURL] is
    http://localhost:8100, both with scheme http and a host on the local
    machine. *)
Theorem development_configuration :
  get_path environment ["production"] = Ok (VBool false)
  /\ get_path environment ["apiServerUrl"] = Ok (VString "http://127.0.0.1:5000")
  /\ get_path environment ["auth0"; "callbackURL"]
     = Ok (VString "http://localhost:8100")
  /\ Forall (fun s => exists u,
               URL.parse s = Some u
               /\ URL.scheme u = "http"
               /\ URL.is_local_host (URL.host u) = true)
            ["http://127.0.0.1:5000"; "http://localhost:8100"].
Proof.
  repeat split.
  repeat constructor; eexists; (split; [vm_compute; reflexivity|split; reflexivity]).
Qed.

(** C10. [auth0.url] is a bare domain prefix and not an absolute URL: it is
    made of host-name characters, has no colon (so no scheme) and no slash,
    and does not parse; of the string fields, the ones that parse as URLs
    are [apiServerUrl] and [auth0.callbackURL] and no other. *)
Theorem auth0_url_is_not_a_url :
  get_path environment ["auth0"; "url"] = Ok (VString "dev-ya94ppfc.us")
  /\ URL.all_chars URL.is_host_char "dev-ya94ppfc.us" = true
  /\ URL.contains ":" "dev-ya94ppfc.us" = false
  /\ URL.contains "/" "dev-ya94ppfc.us" = false
  /\ URL.parse "dev-ya94ppfc.us" = None
  /\ map fst
       (filter (fun pv => match snd pv with
                          | VString s => URL.is_valid s
                          | _ => false
                          end)
               (leaves environment))
     = [ ["apiServerUrl"]; ["auth0"; "callbackURL"] ].
Proof. repeat split. Qed.

(** ** Further properties: writes, types and routes *)

(** X1. Whatever reads and writes follow the load, by whatever holder of the
    binding and under whatever names, the store keeps exactly one binding,
    [environment], and it stays bound to an object: the [const] binding is
    never replaced, removed or joined by another, so a read of one property
    of it never throws. *)
Theorem binding_survives_every_operation (ops : list op) :
  (exists ps, run loaded ops = [("environment", VObject ps)])
  /\ forall k, exists v, read (run loaded ops) "environment" [k] = Ok v.
Proof.
  destruct (run_keeps_binding ops (fields_of environment)) as [ps Hps].
  change [("environment", VObject (fields_of environment))] with loaded in Hps.
  split; [eauto|]. intros k. rewrite Hps.
  change (exists v, (w <- get (VObject ps) k ;; Ok w) = Ok v).
  unfold get. destruct (lookup k ps); cbn [bind]; eauto.
Qed.

(** X2. The record is a plain object, not frozen: a write to any of the six
    scalar fields, with any value, goes through, the field then reads as
    the written value, and every other scalar field reads as before. *)
Theorem write_is_visible_and_local (p q : list string) (w : value) :
  In p leaf_paths -> In q leaf_paths -> q <> p ->
  read (run loaded [OpSet "environment" p w]) "environment" p = Ok w
  /\ read (run loaded [OpSet "environment" p w]) "environment" q
     = read loaded "environment" q.
Proof.
  unfold leaf_paths. cbn [leaves environment map fst].
  intros Hp Hq Hne. cbn in Hp, Hq.
  repeat (destruct Hp as [<-|Hp]; [|]); try contradiction;
    (repeat (destruct Hq as [<-|Hq]; [|]); try contradiction);
    try congruence; split; reflexivity.
Qed.

Lemma write_is_visible_and_local_witness :
  In ["production"] leaf_paths /\ In ["auth0"; "url"] leaf_paths
  /\ read (run loaded [OpSet "environment" ["production"] (VBool true)])
          "environment" ["production"] = Ok (VBool true)
  /\ read (run loaded [OpSet "environment" ["production"] (VBool true)])
          "environment" ["auth0"; "url"]
     = read loaded "environment" ["auth0"; "url"].
Proof.
  assert (Hp : In ["production"] leaf_paths) by (cbn; auto).
  assert (Hq : In ["auth0"; "url"] leaf_paths) by (cbn; auto 6).
  split; [exact Hp|]. split; [exact Hq|].
  apply (write_is_visible_and_local ["production"] ["auth0"; "url"]
           (VBool true) Hp Hq).
  discriminate.
Defined.

(** X3. On the record as loaded, a write that stores at a declared field,
    [auth0] as a whole included, a value assignable to the field's declared
    type succeeds: the binding then holds a record that is still of the
    environment type, and the field reads as the stored value. *)
Theorem declared_write_on_loaded_record
    (path : list string) (t : ty) (w : value) :
  type_at environment_type path = Some t -> path <> [] ->
  assignable w t = true ->
  exists v',
    set_path environment path w = Ok v'
    /\ run loaded [OpSet "environment" path w] = [("environment", v')]
    /\ assignable v' environment_type = true
    /\ read [("environment", v')] "environment" path = Ok w.
Proof.
  intros Ht Hne Hw.
  destruct (assignable_write environment_type path environment t w
              eq_refl eq_refl Ht Hne Hw) as (v' & Hs & Ha & Hg).
  exists v'. split; [exact Hs|]. split; [|split; [exact Ha|exact Hg]].
  destruct path as [|k rest]; [congruence|].
  unfold loaded. cbn [run step lookup String.eqb Ascii.eqb Bool.eqb].
  now rewrite Hs.
Qed.

Lemma declared_write_on_loaded_record_witness :
  let auth0' :=
    VObject [ ("url", VString "example.eu");
              ("audience", VString "drinks");
              ("clientId", VString "0123456789abcdef");
              ("callbackURL", VString "https://app.example.com");
              ("scope", VString "openid") ] in
  type_at environment_type ["auth0"]
  = Some (TObject [ ("url", TString); ("audience", TString);
                    ("clientId", TString); ("callbackURL", TString) ])
  /\ exists v',
       set_path environment ["auth0"] auth0' = Ok v'
       /\ run loaded [OpSet "environment" ["auth0"] auth0']
          = [("environment", v')]
       /\ assignable v' environment_type = true
       /\ read [("environment", v')] "environment" ["auth0"] = Ok auth0'.
Proof.
  intros a. split; [reflexivity|].
  apply (declared_write_on_loaded_record ["auth0"]
           (TObject [ ("url", TString); ("audience", TString);
                      ("clientId", TString); ("callbackURL", TString) ]) a);
    [reflexivity|discriminate|reflexivity].
Defined.

Lemma shape_keeping_step v o :
  assignable v environment_type = true -> shape_keeping_op o = true ->
  exists v', run [("environment", v)] [o] = [("environment", v')]
             /\ assignable v' environment_type = true.
Proof.
  intros Hv Ho. destruct o as [name path|name path w].
  - exists v. split; [|exact Hv]. cbn [run].
    destruct (step [("environment", v)] (OpGet name path)) as [[st' r]|e] eqn:E;
      [|reflexivity].
    now apply step_get_store in E; subst.
  - cbn [shape_keeping_op] in Ho. apply andb_true_iff in Ho as [En Ho].
    apply String.eqb_eq in En. subst name.
    destruct path as [|k rest]; [discriminate|].
    destruct (type_at environment_type (k :: rest)) as [t|] eqn:Et;
      [|discriminate].
    destruct (assignable_write environment_type (k :: rest) v t w eq_refl Hv Et
                ltac:(discriminate) Ho) as (v' & Hs & Hty & _).
    exists v'. split; [|exact Hty].
    cbn [run step lookup String.eqb Ascii.eqb Bool.eqb]. now rewrite Hs.
Qed.

Lemma shape_keeping_run ops : forall v,
  assignable v environment_type = true ->
  forallb shape_keeping_op ops = true ->
  exists v', run [("environment", v)] ops = [("environment", v')]
             /\ assignable v' environment_type = true.
Proof.
  induction ops as [|o ops IH]; intros v Hv Hops; [now exists v|].
  cbn [forallb] in Hops. apply andb_true_iff in Hops as [Ho Hops].
  destruct (shape_keeping_step v o Hv Ho) as (v1 & H1 & Hv1).
  destruct (IH v1 Hv1 Hops) as (v2 & H2 & Hv2).
  exists v2. split; [|exact Hv2].
  cbn [run] in *.
  destruct (step [("environment", v)] o) as [[st' r]|e]; now rewrite H1.
Qed.

(** X4. A run made of reads and of writes that each store, at a declared
    field of [environment], a value assignable to the field's declared type
    keeps the declared shape: after it the binding holds a record of the
    environment type, and each declared field reads as a value of its
    declared kind. *)
Theorem declared_shape_survives_runs (ops : list op) :
  forallb shape_keeping_op ops = true ->
  exists v, run loaded ops = [("environment", v)]
            /\ assignable v environment_type = true
            /\ Forall (fun pk => shape_at v (fst pk) = Some (snd pk))
                      declared_shape.
Proof.
  intros Hops.
  destruct (shape_keeping_run ops environment eq_refl Hops) as (v & Hrun & Hv).
  exists v. split; [exact Hrun|]. split; [exact Hv|].
  exact (declared_shape_of_assignable v Hv).
Qed.

Lemma declared_shape_survives_runs_witness :
  let ops :=
    [ OpSet "environment" ["production"] (VBool true);
      OpGet "environment" ["auth0"; "clientId"];
      OpSet "environment" ["auth0"]
        (VObject [ ("callbackURL", VString "https://app.example.com");
                   ("clientId", VString "0123456789abcdef");
                   ("audience", VString "drinks");
                   ("url", VString "example.eu");
                   ("scope", VString "openid") ]);
      OpSet "environment" ["auth0"; "audience"] (VString "coffee") ] in
  forallb shape_keeping_op ops = true
  /\ exists v, run loaded ops = [("environment", v)]
               /\ assignable v environment_type = true
               /\ Forall (fun pk => shape_at v (fst pk) = Some (snd pk))
                         declared_shape.
Proof.
  intros ops. split; [reflexivity|].
  apply (declared_shape_survives_runs ops). reflexivity.
Defined.

(** *** Base URLs and routes *)

Lemma span_app_more p a b a1 c a2 :
  URL.span p a = (a1, String c a2) ->
  URL.span p (a ++ b) = (a1, (String c a2 ++ b)%string).
Proof.
  revert a1. induction a as [|x a IH]; intros a1; simpl; [discriminate|].
  destruct (p x).
  - destruct (URL.span p a) as [u v] eqn:E. intros [= <- ->].
    now rewrite (IH u eq_refl).
  - now intros [= <- <- <-].
Qed.

Lemma span_app_stop p a b a1 c :
  URL.span p a = (a1, EmptyString) -> p c = false ->
  URL.span p (a ++ String c b) = (a, String c b).
Proof.
  revert a1. induction a as [|x a IH]; intros a1; simpl.
  - intros _ ->. reflexivity.
  - destruct (p x); [|discriminate].
    destruct (URL.span p a) as [u v] eqn:E. intros [= <- ->] Hc.
    now rewrite (IH u eq_refl Hc).
Qed.

Lemma span_all p a a1 : URL.span p a = (a1, EmptyString) -> a1 = a.
Proof.
  intros H. pose proof (span_app p a) as E. rewrite H in E.
  now rewrite append_empty in E.
Qed.

Lemma strip_prefix_more pre : forall s r x,
  URL.strip_prefix pre s = Some r ->
  URL.strip_prefix pre (s ++ x) = Some (r ++ x)%string.
Proof.
  induction pre as [|a pre IH]; intros s r x; simpl.
  - now intros [= ->].
  - destruct s as [|b s]; [discriminate|]. simpl.
    destruct (Ascii.eqb a b); [apply IH|discriminate].
Qed.

(** A URL that ends with its authority, followed by a slash and accepted
    characters, parses with the same scheme, user information, host and
    port. *)
Lemma parse_append_path base u rest :
  URL.parse base = Some u -> URL.tail u = EmptyString ->
  URL.all_chars URL.is_tail_char rest = true ->
  URL.parse (base ++ String "/" rest)
  = Some (URL.mk_url (URL.scheme u) (URL.userinfo u) (URL.host u)
            (URL.port u) (String "/" rest)).
Proof.
  unfold URL.parse. intros Hb Ht Hr.
  destruct (URL.span URL.is_scheme_char base) as [sch r1] eqn:E1.
  destruct sch as [|c sch]; [discriminate|].
  destruct (URL.is_alpha c) eqn:Ec; [|discriminate].
  destruct (URL.strip_prefix "://" r1) as [r2|] eqn:E2; [|discriminate].
  destruct r1 as [|x r1]; [discriminate|].
  rewrite (span_app_more _ _ _ _ _ _ E1), Ec.
  rewrite (strip_prefix_more _ _ _ _ E2).
  destruct (URL.span (fun c0 => negb (URL.ends_authority c0)) r2)
    as [auth rest0] eqn:E3.
  destruct (URL.parse_authority auth) as [[[ui h] po]|] eqn:E4; [|discriminate].
  destruct (URL.all_chars URL.is_tail_char rest0); [|discriminate].
  injection Hb as <-. cbn [URL.tail] in Ht. subst rest0.
  pose proof (span_all _ _ _ E3) as ->.
  rewrite (span_app_stop _ _ _ _ "/" E3 eq_refl), E4.
  change (URL.all_chars URL.is_tail_char (String "/" rest))
    with (URL.all_chars URL.is_tail_char rest).
  now rewrite Hr.
Qed.

Lemma route_char_is_tail_char c :
  URL.is_route_char c = true ->
  URL.is_tail_char c = true
  /\ Ascii.eqb "?" c = false /\ Ascii.eqb "#" c = false
  /\ Ascii.eqb "%" c = false /\ Ascii.eqb "." c = false.
Proof.
  destruct c as [[] [] [] [] [] [] [] []]; vm_compute; intros H;
    repeat split; congruence.
Qed.

Lemma route_is_path rest :
  URL.all_chars URL.is_route_char rest = true ->
  URL.all_chars URL.is_tail_char rest = true
  /\ URL.contains "?" rest = false /\ URL.contains "#" rest = false
  /\ URL.contains "%" rest = false /\ URL.contains "." rest = false.
Proof.
  induction rest as [|c rest IH]; [repeat split|].
  cbn [URL.all_chars URL.contains]. intros H.
  apply andb_true_iff in H as [Hc Hr].
  destruct (route_char_is_tail_char c Hc) as (H1 & H2 & H3 & H4 & H5).
  destruct (IH Hr) as (I1 & I2 & I3 & I4 & I5).
  now rewrite H1, H2, H3, H4, H5, I1, I2, I3, I4, I5.
Qed.

(** X5. [apiServerUrl] and [auth0.callbackURL] end with their authority:
    neither has a path, a query or a fragment.  So either one followed by a
    slash and a route made of letters, digits, hyphens, underscores and
    slashes is a URL with the scheme, host and port of the base whose
    remainder is that route: it has no query, no fragment, no escape and no
    dot segment. *)
Theorem base_urls_extend_by_routes (route : string) :
  URL.all_chars URL.is_route_char route = true ->
  URL.parse ("http://127.0.0.1:5000" ++ String "/" route)
  = Some (URL.mk_url "http" None "127.0.0.1" (Some 5000) (String "/" route))
  /\ URL.parse ("http://localhost:8100" ++ String "/" route)
     = Some (URL.mk_url "http" None "localhost" (Some 8100) (String "/" route))
  /\ get_path environment ["apiServerUrl"]
     = Ok (VString "http://127.0.0.1:5000")
  /\ get_path environment ["auth0"; "callbackURL"]
     = Ok (VString "http://localhost:8100")
  /\ URL.contains "?" route = false /\ URL.contains "#" route = false
  /\ URL.contains "%" route = false /\ URL.contains "." route = false.
Proof.
  intros Hr. destruct (route_is_path route Hr) as (Ht & Hq & Hf & Hp & Hd).
  split; [|split; [|repeat split; assumption]].
  - apply (parse_append_path "http://127.0.0.1:5000"
             (URL.mk_url "http" None "127.0.0.1" (Some 5000) EmptyString));
      [vm_compute; reflexivity|reflexivity|exact Ht].
  - apply (parse_append_path "http://localhost:8100"
             (URL.mk_url "http" None "localhost" (Some 8100) EmptyString));
      [vm_compute; reflexivity|reflexivity|exact Ht].
Qed.

Lemma base_urls_extend_by_routes_witness :
  URL.all_chars URL.is_route_char "drinks-detail" = true
  /\ URL.parse ("http://127.0.0.1:5000" ++ "/drinks-detail")
     = Some (URL.mk_url "http" None "127.0.0.1" (Some 5000) "/drinks-detail").
Proof.
  split; [reflexivity|].
  exact (proj1 (base_urls_extend_by_routes "drinks-detail" eq_refl)).
Defined.
